(** * Account storage of the Cadence runtime: [runtime/storage.go]

    A shallow embedding of [Storage] (the per-transaction delta, read cache
    and contract-update table layered over a host ledger) and of its
    operations [ValueExists], [ReadValue], [WriteValue],
    [recordContractUpdate] and [Commit], followed by the properties of the
    storage specification that concern them. *)

From Stdlib Require Import ZArith String Ascii List.
From Stdlib.Strings Require Import Byte.
From stdpp Require Import base option list sorting gmap strings.

Local Open Scope Z_scope.

(** ** Data model *)

(** [common.Address] is [[8]byte]; a Go [string] is a byte sequence as well.
    Both are strings of 8-bit characters here, compared byte by byte. *)
Module common.
Definition Address := string.
End common.

(** [interpreter.StorageKey]. *)
Record StorageKey := mkStorageKey { Address : common.Address; Key : string }.

#[global] Instance StorageKey_eq_dec : EqDecision StorageKey.
Proof. solve_decision. Defined.

#[global] Instance StorageKey_countable : Countable StorageKey.
Proof.
  refine (inj_countable' (λ k, (Address k, Key k))
                         (λ p, mkStorageKey p.1 p.2) _).
  by intros [].
Defined.

(** The calls a [Storage] makes on its collaborators, in the order made:
    the three [atree.Ledger] methods it uses directly and the flush of the
    embedded [PersistentSlabStorage]. *)
Inductive LedgerCall :=
| CallValueExists (owner : common.Address) (key : string)
| CallGetValue (owner : common.Address) (key : string)
| CallSetValue (owner : common.Address) (key : string) (value : list byte)
| CallFastCommit.

(** [bytes.Compare]: -1, 0 or +1 by lexicographic byte order. *)
Definition bytesCompare (a b : common.Address) : Z :=
  match String.compare a b with
  | Lt => -1
  | Eq => 0
  | Gt => 1
  end.

(** The comparison closure handed to [sort.Slice] in [Commit]
    (storage.go, lines 263-276), on the keys of the two entries. *)
Definition less (a b : StorageKey) : bool :=
  if bytesCompare (Address a) (Address b) <? 0 then true
  else if String.ltb (Key a) (Key b) then true
  else false.

(** The order the comment above the closure names: lexicographic on the
    address, then on the key. *)
Definition lexLess (a b : StorageKey) : bool :=
  match String.compare (Address a) (Address b) with
  | Lt => true
  | Eq => String.ltb (Key a) (Key b)
  | Gt => false
  end.

(** [insertionSort_func] of Go's [sort] package: element [i] moves left while
    it is [less] than its left neighbour.  [sift] works on the already
    processed prefix held in reverse, so its head is that neighbour. *)
Fixpoint sift {A} (less : A → A → bool) (x : A) (rprefix : list A) : list A :=
  match rprefix with
  | [] => [x]
  | p :: ps => if less x p then p :: sift less x ps else x :: rprefix
  end.

Definition insertionSort {A} (less : A → A → bool) (data : list A) : list A :=
  rev (fold_left (λ rprefix x, sift less x rprefix) data []).

Section Runtime.

(** [interpreter.Value] (non-nil), Go [error] values (non-nil), and the
    state behind the [Ledger] handle and the embedded slab storage. *)
Context {Value Err World : Type}.
(** [atree.Storable], the encoder with its buffer, and [atree.Value]. *)
Context {Storable Encoder AtreeValue : Type}.

(** [interpreter.OptionalValue] is an interface: besides [*SomeValue] and
    [NilValue] a caller can hand over any other dynamic type. *)
Inductive OptionalValue :=
| SomeValue (value : Value)
| NilValue
| UnknownOptional.

(** A map value of interface type [interpreter.Value]: [None] is Go's nil. *)
Local Abbreviation MapValue := (option Value).

(** [accountStorageEntry]. *)
Record accountStorageEntry :=
  mkEntry { storageKey : StorageKey; value : MapValue }.

(** The collaborators outside this file.  A Go result [(x, err)] is a sum,
    a lone [error] an option.  A call is taken to return: [wrapPanic],
    which only re-raises a panic of the host in wrapped form, leaves no
    trace here.  [reportMetric] is taken to run the function it is handed
    once, as the runtime's own does; the durations it reports are not
    kept. *)
Class Host := {
  (* atree.Ledger *)
  ledgerValueExists : common.Address → string → World → (Err + bool) * World;
  ledgerGetValue : common.Address → string → World → (Err + list byte) * World;
  ledgerSetValue : common.Address → string → list byte → World → option Err * World;
  (* value.Storable(s, address, atree.MaxInlineElementSize) *)
  valueStorable : Value → common.Address → World → (Err + Storable) * World;
  (* storable.Encode(encoder), run under reportMetric *)
  storableEncode : Storable → Err + Encoder;
  (* encoder.CBOR.Flush() followed by buf.Bytes() *)
  encoderFlush : Encoder → Err + list byte;
  (* interpreter.DecodeStorable, run under reportMetric *)
  decodeStorable : list byte → Err + Storable;
  (* storable.StoredValue(s) *)
  storableStoredValue : Storable → World → (Err + AtreeValue) * World;
  (* interpreter.ConvertStoredValue, behind MustConvertStoredValue *)
  convertStoredValue : AtreeValue → Err + Value;
  (* s.PersistentSlabStorage.FastCommit(runtime.NumCPU()) *)
  fastCommit : World → option Err * World;
  (* sort.Slice *)
  sortSlice : (accountStorageEntry → accountStorageEntry → bool) →
              list accountStorageEntry → list accountStorageEntry
}.

Context `{!Host}.

(** [Storage].  [Ledger] stands for everything behind the ledger handle
    and the slab storage; [calls] is the record of the calls made. *)
Record Storage := mkStorage {
  deltas : gmap StorageKey MapValue;
  cache : gmap StorageKey MapValue;
  contractUpdates : gmap StorageKey MapValue;
  Ledger : World;
  calls : list LedgerCall
}.

(** [NewStorage]. *)
Definition NewStorage (ledger : World) : Storage :=
  mkStorage ∅ ∅ ∅ ledger [].

(** *** State and panic monad *)

Inductive Panic :=
| PanicError (err : Err)
| PanicUnreachable.

Inductive Outcome (A : Type) :=
| Returned (a : A)
| Panicked (p : Panic).
Arguments Returned {A} a.
Arguments Panicked {A} p.

Definition M (A : Type) : Type := Storage → Outcome A * Storage.

#[global] Instance M_ret : MRet M := λ A a s, (Returned a, s).
#[global] Instance M_bind : MBind M := λ A B f m s,
  match m s with
  | (Returned a, s') => f a s'
  | (Panicked p, s') => (Panicked p, s')
  end.

Definition panic {A} (p : Panic) : M A := λ s, (Panicked p, s).
Definition getStorage : M Storage := λ s, (Returned s, s).

(** [if err != nil { panic(err) }] *)
Definition orPanic {A} (r : Err + A) : M A :=
  match r with
  | inl err => panic (PanicError err)
  | inr a => mret a
  end.

(** A call on a collaborator that may change the state behind the handle. *)
Definition onLedger {A} (f : World → A * World) : M A := λ s,
  let '(a, w) := f (Ledger s) in
  (Returned a,
   mkStorage (deltas s) (cache s) (contractUpdates s) w (calls s)).

Definition record (c : LedgerCall) : M () := λ s,
  (Returned (),
   mkStorage (deltas s) (cache s) (contractUpdates s) (Ledger s)
             (calls s ++ [c])).

(** [s.cache[storageKey] = value] *)
Definition setCache (k : StorageKey) (v : MapValue) : M () := λ s,
  (Returned (),
   mkStorage (deltas s) (<[k := v]> (cache s)) (contractUpdates s)
             (Ledger s) (calls s)).

(** [s.deltas[storageKey] = value] *)
Definition setDelta (k : StorageKey) (v : MapValue) : M () := λ s,
  (Returned (),
   mkStorage (<[k := v]> (deltas s)) (cache s) (contractUpdates s)
             (Ledger s) (calls s)).

(** [s.contractUpdates[storageKey] = value] *)
Definition setContractUpdate (k : StorageKey) (v : MapValue) : M () := λ s,
  (Returned (),
   mkStorage (deltas s) (cache s) (<[k := v]> (contractUpdates s))
             (Ledger s) (calls s)).

(** *** Operations *)

(** [value != nil] *)
Definition notNil (v : MapValue) : bool :=
  match v with Some _ => true | None => false end.

(** [NilValue{}] for nil, [NewSomeValueNonCopying(value)] otherwise. *)
Definition optionalOf (v : MapValue) : OptionalValue :=
  match v with Some x => SomeValue x | None => NilValue end.

(** [ValueExists] (lines 71-108). *)
Definition ValueExists (address : common.Address) (key : string) : M bool :=
  let storageKey := mkStorageKey address key in
  s ← getStorage;
  match deltas s !! storageKey with
  | Some value => mret (notNil value)
  | None =>
    match cache s !! storageKey with
    | Some value => mret (notNil value)
    | None =>
      record (CallValueExists address key);;
      r ← onLedger (ledgerValueExists address key);
      exists_ ← orPanic r;
      (if exists_ : bool then mret () else setCache storageKey None);;
      mret exists_
    end
  end.

(** [ReadValue] (lines 112-185). *)
Definition ReadValue (address : common.Address) (key : string) : M OptionalValue :=
  let storageKey := mkStorageKey address key in
  s ← getStorage;
  match deltas s !! storageKey with
  | Some value => mret (optionalOf value)
  | None =>
    match cache s !! storageKey with
    | Some value => mret (optionalOf value)
    | None =>
      record (CallGetValue address key);;
      r ← onLedger (ledgerGetValue address key);
      storedData ← orPanic r;
      match storedData with
      | [] => setCache storageKey None;; mret NilValue
      | _ :: _ =>
        storable ← orPanic (decodeStorable storedData);
        r ← onLedger (storableStoredValue storable);
        storedValue ← orPanic r;
        value ← orPanic (convertStoredValue storedValue);
        setCache storageKey (Some value);;
        mret (SomeValue value)
      end
    end
  end.

(** [WriteValue] (lines 187-215). *)
Definition WriteValue (address : common.Address) (key : string)
    (value : OptionalValue) : M () :=
  let storageKey := mkStorageKey address key in
  writtenValue ← match value with
                 | SomeValue typedValue => mret (Some typedValue)
                 | NilValue => mret None
                 | UnknownOptional => panic PanicUnreachable
                 end;
  setDelta storageKey writtenValue.

(** [recordContractUpdate] (lines 217-228). *)
Definition recordContractUpdate (address : common.Address) (key : string)
    (contract : MapValue) : M () :=
  setContractUpdate (mkStorageKey address key) contract.

(** Lines 285-312 of [Commit]: the bytes for one entry, nil for a nil
    value, else the flushed encoding; the first error is handed back. *)
Definition encodeEntry (entry : accountStorageEntry) : M (Err + list byte) :=
  match value entry with
  | None => mret (inr [])
  | Some v =>
    r ← onLedger (valueStorable v (Address (storageKey entry)));
    match r with
    | inl err => mret (inl err)
    | inr storable =>
      match storableEncode storable with
      | inl err => mret (inl err)
      | inr encoder => mret (encoderFlush encoder)
      end
    end
  end.

(** One iteration of the write loop of [Commit] (lines 281-325); the
    result is the error the iteration returns with, if any. *)
Definition writeEntry (entry : accountStorageEntry) : M (option Err) :=
  r ← encodeEntry entry;
  match r with
  | inl err => mret (Some err)
  | inr encoded =>
    let address := Address (storageKey entry) in
    let key := Key (storageKey entry) in
    record (CallSetValue address key encoded);;
    onLedger (ledgerSetValue address key encoded)
  end.

Fixpoint writeEntries (entries : list accountStorageEntry) : M (option Err) :=
  match entries with
  | [] => mret None
  | entry :: rest =>
    r ← writeEntry entry;
    match r with
    | Some err => mret (Some err)
    | None => writeEntries rest
    end
  end.

(** What a [range] loop over a Go map may yield: its pairs, each once, in
    an order the language leaves open and that may differ between loops. *)
Definition mapRange (m : gmap StorageKey MapValue)
    (pairs : list (StorageKey * MapValue)) : Prop :=
  pairs ≡ₚ map_to_list m.

Definition entryOf (p : StorageKey * MapValue) : accountStorageEntry :=
  mkEntry p.1 p.2.

Definition entryLess (a b : accountStorageEntry) : bool :=
  less (storageKey a) (storageKey b).

(** The slice [Commit] sorts (lines 240-259) and its sorted form. *)
Definition accountStorageEntries (ds cs : list (StorageKey * MapValue))
    : list accountStorageEntry :=
  (entryOf <$> ds) ++ (entryOf <$> cs).

(** [Commit] (lines 238-331).  [ds] and [cs] are the pairs as yielded by
    the loops over [s.deltas] and [s.contractUpdates]. *)
Definition Commit (ds cs : list (StorageKey * MapValue)) : M (option Err) :=
  let sorted := sortSlice entryLess (accountStorageEntries ds cs) in
  r ← writeEntries sorted;
  match r with
  | Some err => mret (Some err)
  | None =>
    record CallFastCommit;;
    onLedger fastCommit
  end.

(** *** Vocabulary of the properties *)


(** The two shapes the interpreter hands to [WriteValue]. *)
Definition publicShape (v : OptionalValue) : Prop :=
  match v with
  | SomeValue _ | NilValue => True
  | UnknownOptional => False
  end.

(** The map value recorded for an optional of a public shape. *)
Definition written (v : OptionalValue) : MapValue :=
  match v with
  | SomeValue x => Some x
  | _ => None
  end.

(** The operations open to the interpreter during a transaction. *)
Inductive Operation :=
| OpValueExists (address : common.Address) (key : string)
| OpReadValue (address : common.Address) (key : string)
| OpWriteValue (address : common.Address) (key : string)
               (value : OptionalValue)
| OpRecordContractUpdate (address : common.Address) (key : string)
                         (contract : MapValue).

Definition perform (op : Operation) : M () :=
  match op with
  | OpValueExists a k => ValueExists a k;; mret ()
  | OpReadValue a k => ReadValue a k;; mret ()
  | OpWriteValue a k v => WriteValue a k v
  | OpRecordContractUpdate a k c => recordContractUpdate a k c
  end.

Fixpoint performAll (ops : list Operation) : M () :=
  match ops with
  | [] => mret ()
  | op :: rest => perform op;; performAll rest
  end.

Definition writesTo (k : StorageKey) (op : Operation) : Prop :=
  match op with
  | OpWriteValue a key _ => mkStorageKey a key = k
  | _ => False
  end.

(** The calls made on the way from [s] to [s']. *)
Definition callsSince (s s' : Storage) : list LedgerCall :=
  drop (length (calls s)) (calls s').

(** The three maps of two states agree. *)
Definition sameBuffers (s s' : Storage) : Prop :=
  deltas s' = deltas s ∧ cache s' = cache s ∧
  contractUpdates s' = contractUpdates s.

(** [bs] is what the codec steps of [Commit] produce for [v] owned by
    [address], from some state of the slab storage. *)
Definition encodes (v : Value) (address : common.Address)
    (bs : list byte) : Prop :=
  ∃ w storable encoder,
    (valueStorable v address w).1 = inr storable ∧
    storableEncode storable = inr encoder ∧
    encoderFlush encoder = inr bs.

(** [v] is what the codec steps of [ReadValue] produce for [bs], with the
    slab storage in state [w]. *)
Definition decodes (bs : list byte) (w : World) (v : Value) : Prop :=
  ∃ storable storedValue,
    decodeStorable bs = inr storable ∧
    (storableStoredValue storable w).1 = inr storedValue ∧
    convertStoredValue storedValue = inr v.

(** The payload [Commit] hands to [SetValue] for a buffered value: nil for
    a deletion, the flushed encoding otherwise. *)
Definition payloadFor (v : MapValue) (address : common.Address)
    (bs : list byte) : Prop :=
  match v with
  | None => bs = []
  | Some x => encodes x address bs
  end.

(** [c] is the write of [entry]. *)
Definition writeOf (entry : accountStorageEntry) (c : LedgerCall) : Prop :=
  ∃ bs, c = CallSetValue (Address (storageKey entry))
                         (Key (storageKey entry)) bs ∧
        payloadFor (value entry) (Address (storageKey entry)) bs.

(** [c] is the write of the buffered pair [p]: a [SetValue] on its key,
    without bytes when its value is nil (a deletion), with the non-empty
    flushed encoding of its value otherwise. *)
Definition writesPair (p : StorageKey * MapValue) (c : LedgerCall) : Prop :=
  ∃ bs, c = CallSetValue (Address p.1) (Key p.1) bs ∧
        match p.2 with
        | None => bs = []
        | Some x => bs ≠ [] ∧ encodes x (Address p.1) bs
        end.

(** What the properties assume of [sort.Slice]: it rearranges its slice. *)
Definition SortPermutes : Prop :=
  ∀ lt entries, sortSlice lt entries ≡ₚ entries.

(** Modelled from the spec: the value codec, whose [Encode] and [Flush]
    lie outside this file.  The specification of the codec (4.3, Version
    byte) has every top-level encoding begin with the format version, so
    what an encoder flushes is that byte followed by the body. *)
Definition VersionedEncoding (version : byte) : Prop :=
  ∀ encoder bs, encoderFlush encoder = inr bs → ∃ body, bs = version :: body.

(** Entry [entry] fails with [err] from state [s], ending in [s']: one of
    its encoding steps returns [err], or the ledger's [SetValue] does. *)
Definition failsWith (entry : accountStorageEntry) (s : Storage)
    (err : Err) (s' : Storage) : Prop :=
  encodeEntry entry s = (Returned (inl err), s') ∨
  ∃ bs s1 w,
    encodeEntry entry s = (Returned (inr bs), s1) ∧
    ledgerSetValue (Address (storageKey entry)) (Key (storageKey entry))
                   bs (Ledger s1) = (Some err, w) ∧
    s' = mkStorage (deltas s1) (cache s1) (contractUpdates s1) w
           (calls s1 ++ [CallSetValue (Address (storageKey entry))
                                      (Key (storageKey entry)) bs]).

End Runtime.

Arguments Returned {_ _} a.
Arguments Panicked {_ _} p.
Arguments SomeValue {_} value.
Arguments NilValue {_}.
Arguments UnknownOptional {_}.

(** ** A small host

    An in-memory ledger with string values, on which the operations can be
    run.  A value is stored as a version byte followed by its bytes; the
    empty string has no storable form, and the key ["locked"] refuses
    writes.  [sort.Slice] is [insertionSort], the routine every release of
    Go's [sort] package runs on a slice this short (up to 6 elements; up to
    12 since Go 1.19). *)
Module MemoryHost.

Definition World := gmap StorageKey (list byte).

(** [common.Address{c}]: the byte [c] followed by seven zero bytes. *)
Definition addressOf (c : ascii) : common.Address :=
  String c (String.string_of_list_byte (replicate 7 x00)).

#[global] Instance host : @Host string string World string string string := {|
  ledgerValueExists a k w :=
    (inr (bool_decide (default [] (w !! mkStorageKey a k) ≠ [])), w);
  ledgerGetValue a k w := (inr (default [] (w !! mkStorageKey a k)), w);
  ledgerSetValue a k bs w :=
    if String.eqb k "locked" then (Some "locked key"%string, w)
    else (None, <[mkStorageKey a k := bs]> w);
  valueStorable v _ w :=
    (match v with
     | EmptyString => inl "no storable form"%string
     | _ => inr v
     end, w);
  storableEncode st := inr st;
  encoderFlush enc := inr (x01 :: String.list_byte_of_string enc);
  decodeStorable bs :=
    match bs with
    | x01 :: rest => inr (String.string_of_list_byte rest)
    | _ => inl "unknown version"%string
    end;
  storableStoredValue st w := (inr st, w);
  convertStoredValue v := inr v;
  fastCommit w := (None, w);
  sortSlice := insertionSort
|}.

Definition A : common.Address := addressOf "A".
Definition B : common.Address := addressOf "B".

Definition Ax := mkStorageKey A "x".
Definition Ay := mkStorageKey A "y".
Definition Bx := mkStorageKey B "x".

(** The ordering scenario: three writes on a fresh [Storage]. *)
Definition threeWrites : @Storage string World :=
  (performAll [OpWriteValue A "y" (SomeValue "1"%string);
               OpWriteValue B "x" (SomeValue "2"%string);
               OpWriteValue A "x" (SomeValue "3"%string)]
              (NewStorage (∅ : World))).2.

(** The pairs of its delta in the order the writes were made. *)
Definition asWritten : list (StorageKey * option string) :=
  [(Ay, Some "1"%string); (Bx, Some "2"%string); (Ax, Some "3"%string)].

(** Two writes, to two accounts, and the two orders a range loop over
    the resulting delta can take. *)
Definition twoWrites : @Storage string World :=
  (performAll [OpWriteValue A "y" (SomeValue "1"%string);
               OpWriteValue B "x" (SomeValue "2"%string)]
              (NewStorage (∅ : World))).2.

Definition forwards : list (StorageKey * option string) :=
  [(Ay, Some "1"%string); (Bx, Some "2"%string)].

Definition backwards : list (StorageKey * option string) :=
  [(Bx, Some "2"%string); (Ay, Some "1"%string)].

(** One key written as a value and recorded as a contract update. *)
Definition bothBuffers : @Storage string World :=
  (performAll [OpWriteValue A "x" (SomeValue "1"%string);
               OpRecordContractUpdate A "x" (Some "2"%string)]
              (NewStorage (∅ : World))).2.

Definition asValue : list (StorageKey * option string) :=
  [(Ax, Some "1"%string)].

Definition asContract : list (StorageKey * option string) :=
  [(Ax, Some "2"%string)].

(** A deletion, a value, and a contract update on distinct keys. *)
Definition mixedBuffers : @Storage string World :=
  (performAll [OpWriteValue A "x" NilValue;
               OpWriteValue A "y" (SomeValue "1"%string);
               OpRecordContractUpdate B "x" (Some "2"%string)]
              (NewStorage (∅ : World))).2.

Definition mixedDeltas : list (StorageKey * option string) :=
  [(Ax, None); (Ay, Some "1"%string)].

Definition mixedUpdates : list (StorageKey * option string) :=
  [(Bx, Some "2"%string)].

(** A write to the key that refuses writes, between two others. *)
Definition lockedWrite : @Storage string World :=
  (performAll [OpWriteValue A "a" (SomeValue "1"%string);
               OpWriteValue A "locked" (SomeValue "2"%string);
               OpWriteValue A "z" (SomeValue "3"%string)]
              (NewStorage (∅ : World))).2.

Definition lockedDeltas : list (StorageKey * option string) :=
  [(mkStorageKey A "a", Some "1"%string);
   (mkStorageKey A "locked", Some "2"%string);
   (mkStorageKey A "z", Some "3"%string)].

Definition lockedEntry : @accountStorageEntry string :=
  mkEntry (mkStorageKey A "locked") (Some "2"%string).

(** The state once the entry sorted before [lockedEntry] is written, and
    the state [lockedEntry] fails in. *)
Definition beforeLocked : @Storage string World :=
  (writeEntries [mkEntry (mkStorageKey A "a") (Some "1"%string)]
                lockedWrite).2.

Definition atLocked : @Storage string World := (writeEntry lockedEntry beforeLocked).2.

(** [twoWrites] after a first [Commit]. *)
Definition committedOnce : @Storage string World := (Commit forwards [] twoWrites).2.

(** A ledger that holds ["hello"] under [(A, "k")], a fresh [Storage]
    over it, and that [Storage] after reading the key. *)
Definition seeded : World :=
  {[ mkStorageKey A "k" := x01 :: String.list_byte_of_string "hello" ]}.

Definition fresh : @Storage string World := NewStorage seeded.

Definition afterRead : @Storage string World := (ReadValue A "k" fresh).2.

End MemoryHost.

(** The keys of the [SetValue] calls among [cs], in order. *)
Definition setValueKey (c : LedgerCall) : option StorageKey :=
  match c with
  | CallSetValue a k _ => Some (mkStorageKey a k)
  | _ => None
  end.

Definition setValueKeys (cs : list LedgerCall) : list StorageKey :=
  omap setValueKey cs.

Definition isSetValue (c : LedgerCall) : bool :=
  match c with
  | CallSetValue _ _ _ => true
  | _ => false
  end.

(** How often [k] occurs among [keys]. *)
Definition countKey (k : StorageKey) (keys : list StorageKey) : nat :=
  length (filter (λ k', k' = k) keys).

(** How many of the calls [cs] are [SetValue] on key [k]. *)
Definition writesOn (k : StorageKey) (cs : list LedgerCall) : nat :=
  countKey k (setValueKeys cs).

(** How many of the two buffers hold an entry for [k]. *)
Definition buffersHolding {V} (k : StorageKey)
    (deltas contractUpdates : gmap StorageKey V) : nat :=
  (match deltas !! k with Some _ => 1 | None => 0 end +
   match contractUpdates !! k with Some _ => 1 | None => 0 end)%nat.

(** A list of keys in strictly ascending [(address, key)] order: each key
    is [lexLess] than every key after it. *)
Fixpoint ascending (keys : list StorageKey) : bool :=
  match keys with
  | [] => true
  | k :: rest => forallb (lexLess k) rest && ascending rest
  end.

(** ** Further vocabulary *)

(** [lt] is a strict total order on the elements of [l]. *)
Definition strictTotalOn {A} (lt : A → A → bool) (l : list A) : Prop :=
  (∀ a, a ∈ l → lt a a = false) ∧
  (∀ a b c, a ∈ l → b ∈ l → c ∈ l →
            lt a b = true → lt b c = true → lt a c = true) ∧
  (∀ a b, a ∈ l → b ∈ l → lt a b = false → lt b a = false → a = b).

Section MoreVocabulary.

Context {Value Err World Storable Encoder AtreeValue : Type}.
Context `{!@Host Value Err World Storable Encoder AtreeValue}.

(** The optional is a [*SomeValue]. *)
Definition isSomeValue (v : @OptionalValue Value) : bool :=
  match v with
  | SomeValue _ => true
  | _ => false
  end.

(** The operations that only read. *)
Definition readOnly (op : @Operation Value) : Prop :=
  match op with
  | OpValueExists _ _ | OpReadValue _ _ => True
  | _ => False
  end.

(** What [sort.Slice] promises for a closure that orders the slice: no
    element of the result is less than one before it. *)
Definition SortSorts : Prop :=
  ∀ lt entries,
    strictTotalOn lt entries →
    StronglySorted (λ a b, lt b a = false) (sortSlice lt entries).

End MoreVocabulary.

(** The [Storage] of [MemoryHost.afterRead] once the key it read has been
    written again. *)
Definition afterRewrite : @Storage string MemoryHost.World :=
  (performAll (H := MemoryHost.host)
     [OpWriteValue MemoryHost.A "k" (SomeValue "bye"%string)]
     MemoryHost.afterRead).2.

(** Further states over [MemoryHost]: [fresh] after asking whether the
    absent key [(A, "j")] exists, and after asking whether the stored key
    [(A, "k")] exists; and a fresh [Storage] over a ledger whose bytes under
    [(A, "k")] carry an unknown version. *)
Definition afterMissing : @Storage string MemoryHost.World :=
  (ValueExists (H := MemoryHost.host) MemoryHost.A "j" MemoryHost.fresh).2.

Definition afterExists : @Storage string MemoryHost.World :=
  (ValueExists (H := MemoryHost.host) MemoryHost.A "k" MemoryHost.fresh).2.

Definition corrupted : @Storage string MemoryHost.World :=
  NewStorage {[ mkStorageKey MemoryHost.A "k" := [x02; x68] ]}.

(** A host whose ledger is out of reach: every call on it returns an
    error.  Nothing is ever encoded or decoded. *)
Definition downHost : @Host string string () string string string := {|
  ledgerValueExists _ _ w := (inl "ledger down"%string, w);
  ledgerGetValue _ _ w := (inl "ledger down"%string, w);
  ledgerSetValue _ _ _ w := (Some "ledger down"%string, w);
  valueStorable v _ w := (inr v, w);
  storableEncode st := inr st;
  encoderFlush enc := inr (x01 :: String.list_byte_of_string enc);
  decodeStorable bs := inr (String.string_of_list_byte bs);
  storableStoredValue st w := (inr st, w);
  convertStoredValue v := inr v;
  fastCommit w := (Some "ledger down"%string, w);
  sortSlice := insertionSort
|}.

(** ** Properties *)

(** *** The sorting routine *)

Lemma sift_perm {A} (lt : A → A → bool) x (rprefix : list A) :
  sift lt x rprefix ≡ₚ x :: rprefix.
Proof.
  induction rprefix as [|p ps IH]; simpl; [done|].
  destruct (lt x p); [|done].
  rewrite IH. apply Permutation_swap.
Qed.

Lemma insertionSort_perm {A} (lt : A → A → bool) (data : list A) :
  insertionSort lt data ≡ₚ data.
Proof.
  unfold insertionSort. rewrite <- Permutation_rev.
  assert (G : ∀ acc, fold_left (λ r x, sift lt x r) data acc ≡ₚ data ++ acc).
  { induction data as [|x xs IH]; intros acc; simpl; [done|].
    rewrite IH, sift_perm. by rewrite Permutation_middle. }
  rewrite G. by rewrite app_nil_r.
Qed.

Section RuntimeFacts.

Context {Value Err World Storable Encoder AtreeValue : Type}.
Context `{!@Host Value Err World Storable Encoder AtreeValue}.

Implicit Types (s : @Storage Value World) (k : StorageKey).
Implicit Types (entry : @accountStorageEntry Value).

Ltac run :=
  unfold mbind, mret, M_bind, M_ret, getStorage, record, onLedger,
    setCache, setDelta, setContractUpdate, panic, orPanic in *;
  simpl in *.

(** *** The write loop of [Commit] *)

Lemma encodeEntry_spec entry s :
  ∃ r s', encodeEntry entry s = (Returned r, s') ∧
    sameBuffers s s' ∧ calls s' = calls s ∧
    ∀ bs, r = inr bs →
      payloadFor (value entry) (Address (storageKey entry)) bs.
Proof.
  unfold encodeEntry, payloadFor. destruct (value entry) as [v|].
  - run.
    destruct (valueStorable v (Address (storageKey entry)) (Ledger s))
      as [[err|storable] w] eqn:Hst.
    + eexists _, _. repeat split; simpl; try done.
    + destruct (storableEncode storable) as [err|encoder] eqn:Henc.
      * eexists _, _. repeat split; simpl; try done.
      * eexists _, _. repeat split; simpl; try done.
        intros bs Hbs. exists (Ledger s), storable, encoder.
        by rewrite Hst.
  - exists (inr []), s. repeat split; try done. by intros bs [= <-].
Qed.

Lemma writeEntry_spec entry s :
  ∃ r s', writeEntry entry s = (Returned r, s') ∧ sameBuffers s s' ∧
    ((calls s' = calls s ∧ r ≠ None) ∨
     (∃ c, calls s' = calls s ++ [c] ∧ writeOf entry c)).
Proof.
  destruct (encodeEntry_spec entry s) as (r & s1 & Henc & Hsame & Hcalls & Hpay).
  unfold writeEntry. run. rewrite Henc.
  destruct r as [err|bs].
  - exists (Some err), s1. repeat split; try apply Hsame. by left.
  - destruct (ledgerSetValue _ _ bs (Ledger s1)) as [r w] eqn:Hset.
    eexists _, _. split; [done|]. split; [exact Hsame|]. right.
    eexists. simpl. rewrite Hcalls. split; [done|].
    exists bs. split; [done|]. by apply Hpay.
Qed.

Lemma writeEntries_spec entries s :
  ∃ r s' made,
    writeEntries entries s = (Returned r, s') ∧ sameBuffers s s' ∧
    calls s' = calls s ++ made ∧
    Forall2 writeOf (take (length made) entries) made ∧
    (r = None → length made = length entries).
Proof.
  revert s. induction entries as [|entry rest IH]; intros s.
  - exists None, s, []. simpl. rewrite app_nil_r. by repeat split.
  - destruct (writeEntry_spec entry s) as (r & s1 & Hw & Hsame & Hc).
    simpl. run. rewrite Hw.
    destruct r as [err|].
    + destruct Hc as [[Hc _]|(c & Hc & Hof)].
      * exists (Some err), s1, []. rewrite app_nil_r.
        split; [done|]. split; [exact Hsame|]. by repeat split.
      * exists (Some err), s1, [c].
        split; [done|]. split; [exact Hsame|]. split; [done|].
        split; [|done]. simpl. rewrite take_0. by constructor.
    + destruct Hc as [[_ Hc]|(c & Hc & Hof)]; [done|].
      destruct (IH s1) as (r' & s' & made & Hr & Hsame' & Hc' & Hall & Hlen).
      exists r', s', (c :: made). rewrite Hr.
      destruct Hsame as (?&?&?), Hsame' as (?&?&?).
      repeat split; try congruence.
      * rewrite Hc', Hc. by rewrite <- app_assoc.
      * simpl. by constructor.
      * intros Hn. simpl. by rewrite Hlen.
Qed.

Lemma callsSince_app s s' made :
  calls s' = calls s ++ made → callsSince s s' = made.
Proof. unfold callsSince. intros ->. by rewrite drop_app_length. Qed.

Lemma Commit_spec ds cs s :
  ∃ r s' made,
    Commit ds cs s = (Returned r, s') ∧ sameBuffers s s' ∧
    Forall2 writeOf
      (take (length made) (sortSlice entryLess (accountStorageEntries ds cs)))
      made ∧
    ((r ≠ None ∧ callsSince s s' = made) ∨
     (length made = length (sortSlice entryLess (accountStorageEntries ds cs))
      ∧ callsSince s s' = made ++ [CallFastCommit])).
Proof.
  destruct (writeEntries_spec
              (sortSlice entryLess (accountStorageEntries ds cs)) s)
    as (r & s1 & made & Hw & Hsame & Hc & Hall & Hlen).
  unfold Commit. run. rewrite Hw. destruct r as [err|].
  - exists (Some err), s1, made. split; [done|]. split; [done|].
    split; [done|]. left. split; [done|]. by apply callsSince_app.
  - destruct (fastCommit (Ledger s1)) as [r w].
    eexists r, _, made. split; [done|]. split; [exact Hsame|].
    split; [done|]. right. split; [by apply Hlen|].
    apply callsSince_app. simpl. rewrite Hc. by rewrite <- app_assoc.
Qed.

Lemma writeOf_key entry c :
  writeOf entry c → setValueKey c = Some (storageKey entry).
Proof. intros (bs & -> & _). simpl. by destruct (storageKey entry). Qed.

Lemma writeOf_isSetValue entry c : writeOf entry c → isSetValue c = true.
Proof. by intros (bs & -> & _). Qed.

Lemma Forall2_writeOf_keys entries made :
  Forall2 writeOf entries made →
  setValueKeys made = storageKey <$> entries.
Proof.
  induction 1 as [|entry c entries made Hof _ IH]; [done|].
  unfold setValueKeys in *. cbn [omap list_omap].
  rewrite (writeOf_key _ _ Hof). cbn. by rewrite IH.
Qed.

Lemma Forall2_writeOf_filter entries made :
  Forall2 writeOf entries made → filter isSetValue made = made.
Proof.
  induction 1 as [|entry c entries made Hof _ IH]; [done|].
  rewrite filter_cons, (writeOf_isSetValue _ _ Hof). simpl.
  by rewrite IH.
Qed.

Lemma Forall2_writeOf_no_flush entries made :
  Forall2 writeOf entries made → CallFastCommit ∉ made.
Proof.
  induction 1 as [|entry c entries made Hof _ IH].
  - apply not_elem_of_nil.
  - intros [Heq|Hin]%elem_of_cons; [|done].
    subst c. by destruct Hof as (bs & [=] & _).
Qed.

Lemma setValueKeys_app cs1 cs2 :
  setValueKeys (cs1 ++ cs2) = setValueKeys cs1 ++ setValueKeys cs2.
Proof. apply omap_app. Qed.

(** *** Counting the entries of a key *)

Lemma countKey_NoDup k keys :
  NoDup keys → countKey k keys = if decide (k ∈ keys) then 1%nat else 0%nat.
Proof.
  unfold countKey. induction 1 as [|k' keys Hnotin Hnd IH]; [done|].
  rewrite filter_cons. destruct (decide (k' = k)) as [->|Hne]; simpl.
  - rewrite IH. rewrite (decide_False (P := k ∈ keys)) by done.
    by rewrite (decide_True (P := k ∈ k :: keys)) by apply list_elem_of_here.
  - rewrite IH. destruct (decide (k ∈ keys)) as [Hin|Hnin].
    + rewrite (decide_True (P := k ∈ k' :: keys)); [done|].
      by apply list_elem_of_further.
    + rewrite (decide_False (P := k ∈ k' :: keys)); [done|].
      intros [?|?]%elem_of_cons; [congruence|done].
Qed.

Lemma countKey_perm k : Proper ((≡ₚ) ==> (=)) (countKey k).
Proof. intros l1 l2 Hp. unfold countKey. by rewrite Hp. Qed.

Lemma countKey_take k n keys : (countKey k (take n keys) ≤ countKey k keys)%nat.
Proof.
  unfold countKey. rewrite <- (take_drop n keys) at 2.
  rewrite filter_app, length_app. lia.
Qed.

Lemma countKey_range k (m : gmap StorageKey (option Value)) pairs :
  mapRange m pairs →
  countKey k (storageKey <$> (entryOf <$> pairs)) =
    match m !! k with Some _ => 1%nat | None => 0%nat end.
Proof.
  unfold mapRange. intros Hp.
  rewrite <- list_fmap_compose.
  rewrite (countKey_perm k _ ((map_to_list m).*1)).
  2:{ rewrite Hp. by rewrite (list_fmap_ext (storageKey ∘ entryOf) fst). }
  rewrite countKey_NoDup by apply NoDup_fst_map_to_list.
  destruct (m !! k) as [v|] eqn:Hk.
  - rewrite decide_True; [done|].
    apply list_elem_of_fmap. exists (k, v). split; [done|].
    by apply elem_of_map_to_list.
  - rewrite decide_False; [done|].
    intros ([k' v] & -> & Hin)%list_elem_of_fmap.
    apply elem_of_map_to_list in Hin. simpl in Hk. congruence.
Qed.

Lemma countKey_entries k s ds cs :
  mapRange (deltas s) ds → mapRange (contractUpdates s) cs →
  countKey k (storageKey <$> accountStorageEntries ds cs) =
    buffersHolding k (deltas s) (contractUpdates s).
Proof.
  intros Hd Hc. unfold accountStorageEntries, buffersHolding.
  rewrite fmap_app. unfold countKey. rewrite filter_app, length_app.
  fold (countKey k (storageKey <$> (entryOf <$> ds))).
  fold (countKey k (storageKey <$> (entryOf <$> cs))).
  by rewrite (countKey_range k _ _ Hd), (countKey_range k _ _ Hc).
Qed.

(** C3 as amended: in one [Commit] a key is written at most once for
    each of the two buffers (delta, contract updates) that hold it, hence
    at most once unless both hold it; and when the write loop runs to its
    end (the slab flush is reached) it is written exactly that often, so
    twice for a key held by both. *)
Theorem Commit_writes_per_buffer ds cs s r s' k :
  SortPermutes →
  mapRange (deltas s) ds → mapRange (contractUpdates s) cs →
  Commit ds cs s = (Returned r, s') →
  (writesOn k (callsSince s s')
     ≤ buffersHolding k (deltas s) (contractUpdates s))%nat ∧
  (CallFastCommit ∈ callsSince s s' →
   writesOn k (callsSince s s')
     = buffersHolding k (deltas s) (contractUpdates s)).
Proof.
  intros Hsort Hd Hc Hrun.
  destruct (Commit_spec ds cs s) as (r0 & s0 & made & Hrun0 & _ & Hall & Hcase).
  rewrite Hrun in Hrun0. injection Hrun0 as <- <-.
  rewrite <- (countKey_entries k s ds cs Hd Hc).
  rewrite <- (countKey_perm k _ _
                (fmap_Permutation storageKey _ _ (Hsort entryLess _))).
  pose proof (Forall2_writeOf_keys _ _ Hall) as Hkeys.
  unfold writesOn.
  assert (Hk : setValueKeys (callsSince s s') = setValueKeys made).
  { destruct Hcase as [[_ ->]|[_ ->]]; [done|].
    rewrite setValueKeys_app. simpl. apply app_nil_r. }
  rewrite Hk, Hkeys. split.
  - rewrite fmap_take. apply countKey_take.
  - intros Hin. destruct Hcase as [[_ Hcalls]|[Hlen _]].
    + rewrite Hcalls in Hin.
      by destruct (Forall2_writeOf_no_flush _ _ Hall).
    + by rewrite Hlen, firstn_all.
Qed.

Lemma accountStorageEntries_pairs s ds cs :
  mapRange (deltas s) ds → mapRange (contractUpdates s) cs →
  (λ entry, (storageKey entry, value entry)) <$> accountStorageEntries ds cs
    ≡ₚ map_to_list (deltas s) ++ map_to_list (contractUpdates s).
Proof.
  unfold mapRange, accountStorageEntries. intros <- <-.
  rewrite fmap_app, <- !list_fmap_compose.
  rewrite (list_fmap_ext _ id ds) by (by intros ? []).
  rewrite (list_fmap_ext _ id cs) by (by intros ? []).
  by rewrite !list_fmap_id.
Qed.

Lemma writeOf_writesPair version entry c :
  VersionedEncoding version → writeOf entry c →
  writesPair (storageKey entry, value entry) c.
Proof.
  intros Hversion (bs & -> & Hpay). exists bs. split; [done|]. simpl.
  unfold payloadFor in Hpay. destruct (value entry) as [v|]; [|done].
  split; [|done].
  destruct Hpay as (w & storable & encoder & _ & _ & Hflush).
  by destruct (Hversion _ _ Hflush) as [body ->].
Qed.

(** C6: when [Commit] runs its write loop to the end (it returns nil, or
    at least reaches the slab flush), its [SetValue] calls are, one for
    one, the writes of the pairs that the delta and the contract-update
    map hold: every pair of either map is written, on its own key, with
    empty bytes when its value is nil (a deletion) and with the flushed
    encoding of its value otherwise, which is non-empty since it starts
    with the format version; and nothing else is written. *)
Theorem Commit_payloads version ds cs s r s' :
  SortPermutes → VersionedEncoding version →
  mapRange (deltas s) ds → mapRange (contractUpdates s) cs →
  Commit ds cs s = (Returned r, s') →
  r = None ∨ CallFastCommit ∈ callsSince s s' →
  (∃ pairs,
     pairs ≡ₚ map_to_list (deltas s) ++ map_to_list (contractUpdates s) ∧
     Forall2 writesPair pairs (filter isSetValue (callsSince s s'))) ∧
  (∀ k v, deltas s !! k = Some v ∨ contractUpdates s !! k = Some v →
          ∃ c, c ∈ callsSince s s' ∧ writesPair (k, v) c).
Proof.
  intros Hsort Hversion Hd Hc Hrun Hend.
  destruct (Commit_spec ds cs s) as (r0 & s0 & made & Hrun0 & _ & Hall & Hcase).
  rewrite Hrun in Hrun0. injection Hrun0 as <- <-.
  destruct Hcase as [[Hr Hcalls]|[Hlen Hcalls]].
  { exfalso. destruct Hend as [->|Hin]; [done|].
    rewrite Hcalls in Hin. by destruct (Forall2_writeOf_no_flush _ _ Hall). }
  rewrite Hlen, firstn_all in Hall.
  assert (Hmade : filter isSetValue (callsSince s s') = made).
  { rewrite Hcalls, filter_app, (Forall2_writeOf_filter _ _ Hall).
    rewrite filter_cons, filter_nil. simpl. apply app_nil_r. }
  assert (Hperm :
    (λ entry, (storageKey entry, value entry))
      <$> sortSlice entryLess (accountStorageEntries ds cs)
    ≡ₚ map_to_list (deltas s) ++ map_to_list (contractUpdates s)).
  { rewrite (Hsort entryLess _). by apply accountStorageEntries_pairs. }
  assert (Hpairs : Forall2 writesPair
    ((λ entry, (storageKey entry, value entry))
       <$> sortSlice entryLess (accountStorageEntries ds cs)) made).
  { apply Forall2_fmap_l. eapply Forall2_impl; [exact Hall|].
    intros entry c. by apply (writeOf_writesPair version). }
  split.
  { eexists. split; [exact Hperm|]. by rewrite Hmade. }
  intros k v Hheld.
  assert (Hin : (k, v) ∈ (λ entry, (storageKey entry, value entry))
                  <$> sortSlice entryLess (accountStorageEntries ds cs)).
  { rewrite Hperm. apply elem_of_app.
    destruct Hheld as [Hk|Hk]; [left|right]; by apply elem_of_map_to_list. }
  apply list_elem_of_lookup in Hin as [i Hi].
  destruct (Forall2_lookup_l _ _ _ _ _ Hpairs Hi) as (c & Hci & Hwrite).
  exists c. split; [|done].
  rewrite Hcalls. apply elem_of_app. left.
  by apply list_elem_of_lookup_2 in Hci.
Qed.

Lemma failsWith_writeEntry entry s err s' :
  failsWith entry s err s' →
  writeEntry entry s = (Returned (Some err), s').
Proof.
  unfold writeEntry.
  intros [Henc|(bs & s1 & w & Henc & Hset & ->)]; run; rewrite Henc.
  - done.
  - by rewrite Hset.
Qed.

Lemma writeEntries_app pre rest s s1 :
  writeEntries pre s = (Returned None, s1) →
  writeEntries (pre ++ rest) s = writeEntries rest s1.
Proof.
  revert s. induction pre as [|entry pre IH]; intros s; simpl.
  - run. by intros [= ->].
  - run. destruct (writeEntry entry s) as [[[err|]|p] s0]; try done.
    apply IH.
Qed.

(** C8: when the entries sorted before [entry] are written without error
    and [entry] fails with [err] (in one of its encoding steps or in the
    ledger's [SetValue]), [Commit] returns exactly [err] in the state the
    failure left: the calls made are the writes of the earlier entries,
    followed at most by the failed [SetValue] itself, so no later entry
    is written and the slab flush is not called. *)
Theorem Commit_first_error ds cs s pre entry post s1 err s2 :
  sortSlice entryLess (accountStorageEntries ds cs) = pre ++ entry :: post →
  writeEntries pre s = (Returned None, s1) →
  failsWith entry s1 err s2 →
  Commit ds cs s = (Returned (Some err), s2) ∧
  sameBuffers s s2 ∧
  (CallFastCommit ∉ callsSince s s2) ∧
  ∃ made,
    Forall2 writeOf pre made ∧
    (callsSince s s2 = made ∨
     ∃ bs, callsSince s s2 =
             made ++ [CallSetValue (Address (storageKey entry))
                                   (Key (storageKey entry)) bs]).
Proof.
  intros Hsorted Hpre Hfail.
  pose proof (failsWith_writeEntry _ _ _ _ Hfail) as Hentry.
  assert (Hrun : Commit ds cs s = (Returned (Some err), s2)).
  { unfold Commit. rewrite Hsorted. run.
    rewrite (writeEntries_app _ _ _ _ Hpre). simpl. run.
    by rewrite Hentry. }
  destruct (writeEntries_spec pre s)
    as (r & s1' & made & Hpre' & Hsame1 & Hcalls1 & Hall & Hlen).
  rewrite Hpre in Hpre'. injection Hpre' as <- <-.
  rewrite (Hlen eq_refl), firstn_all in Hall.
  destruct (writeEntry_spec entry s1) as (r' & s2' & Hw & Hsame2 & Hc).
  rewrite Hentry in Hw. injection Hw as <- <-.
  assert (Hsame : sameBuffers s s2).
  { destruct Hsame1 as (?&?&?), Hsame2 as (?&?&?).
    repeat split; congruence. }
  assert (Hmade : callsSince s s2 = made ∨
    ∃ bs, callsSince s s2 =
            made ++ [CallSetValue (Address (storageKey entry))
                                  (Key (storageKey entry)) bs]).
  { destruct Hc as [[Hc _]|(c & Hc & (bs & -> & _))].
    - left. apply callsSince_app. by rewrite Hc.
    - right. exists bs. apply callsSince_app.
      by rewrite Hc, Hcalls1, <- app_assoc. }
  split; [done|]. split; [done|]. split; [|by exists made].
  pose proof (Forall2_writeOf_no_flush _ _ Hall) as Hno.
  destruct Hmade as [->|(bs & ->)]; [done|].
  intros [?|Hin]%elem_of_app; [done|].
  by apply list_elem_of_singleton in Hin.
Qed.

(** *** The operations of a transaction *)

Lemma WriteValue_returns address key v s :
  publicShape v →
  WriteValue (Err := Err) address key v s =
    (Returned (),
     mkStorage (<[mkStorageKey address key := written v]> (deltas s))
               (cache s) (contractUpdates s) (Ledger s) (calls s)).
Proof. by destruct v. Qed.

(** C9: handed one of the two public optional shapes, [WriteValue]
    returns normally, so it does not panic, having recorded the value in
    the delta and changed nothing else; it panics exactly when handed
    another shape. *)
Theorem WriteValue_public_shape address key v s :
  publicShape v →
  WriteValue (Err := Err) address key v s =
    (Returned (),
     mkStorage (<[mkStorageKey address key := written v]> (deltas s))
               (cache s) (contractUpdates s) (Ledger s) (calls s)) ∧
  ∀ v' p s', WriteValue (Err := Err) address key v' s = (Panicked p, s') →
             v' = UnknownOptional.
Proof.
  intros Hshape. split; [by apply WriteValue_returns|].
  by intros [x| |] p s'.
Qed.

Lemma ReadValue_delta address key v s :
  deltas s !! mkStorageKey address key = Some v →
  ReadValue address key s = (Returned (optionalOf v), s).
Proof. intros Hd. unfold ReadValue. run. by rewrite Hd. Qed.

Lemma ReadValue_cache address key v s :
  deltas s !! mkStorageKey address key = None →
  cache s !! mkStorageKey address key = Some v →
  ReadValue address key s = (Returned (optionalOf v), s).
Proof. intros Hd Hc. unfold ReadValue. run. by rewrite Hd, Hc. Qed.

Lemma optionalOf_written (v : @OptionalValue Value) :
  publicShape v → optionalOf (written v) = v.
Proof. by destruct v. Qed.


(** C5: [ValueExists] answers from the delta when the key is there,
    whatever the cache holds and without a ledger call; else from the
    cache when the key is there, without a ledger call; and when the
    ledger, asked last, reports the key missing, it records nil for the
    key in the cache. *)
Theorem ValueExists_lookup_order address key s :
  (∀ v, deltas s !! mkStorageKey address key = Some v →
        ValueExists address key s = (Returned (bool_decide (v ≠ None)), s)) ∧
  (∀ v, deltas s !! mkStorageKey address key = None →
        cache s !! mkStorageKey address key = Some v →
        ValueExists address key s = (Returned (bool_decide (v ≠ None)), s)) ∧
  (∀ w, deltas s !! mkStorageKey address key = None →
        cache s !! mkStorageKey address key = None →
        ledgerValueExists address key (Ledger s) = (inr false, w) →
        ValueExists address key s =
          (Returned false,
           mkStorage (deltas s)
                     (<[mkStorageKey address key := None]> (cache s))
                     (contractUpdates s) w
                     (calls s ++ [CallValueExists address key]))).
Proof.
  unfold ValueExists. repeat split.
  - intros v Hd. run. rewrite Hd. by destruct v.
  - intros v Hd Hc. run. rewrite Hd, Hc. by destruct v.
  - intros w Hd Hc Hl. run. by rewrite Hd, Hc, Hl.
Qed.

(** The effect of one operation on the entries of the delta and the
    cache: the delta changes only at a key written, the cache only where
    it had no entry. *)
Lemma ValueExists_effect address key s b s' :
  ValueExists address key s = (Returned b, s') →
  deltas s' = deltas s ∧
  ∀ k v, cache s !! k = Some v → cache s' !! k = Some v.
Proof.
  unfold ValueExists. run.
  destruct (deltas s !! _) as [d|]; [by intros [= _ <-]|].
  destruct (cache s !! mkStorageKey address key) as [c|] eqn:Hc;
    [by intros [= _ <-]|].
  destruct (ledgerValueExists address key (Ledger s)) as [[err|[]] w];
    simpl; [done|by intros [= _ <-]|].
  intros [= _ <-]. split; [done|]. simpl. intros k v Hk.
  rewrite lookup_insert_ne; [done|]. congruence.
Qed.

Lemma ReadValue_effect address key s r s' :
  ReadValue address key s = (Returned r, s') →
  deltas s' = deltas s ∧
  ∀ k v, cache s !! k = Some v → cache s' !! k = Some v.
Proof.
  unfold ReadValue. run.
  destruct (deltas s !! _) as [d|]; [by intros [= _ <-]|].
  destruct (cache s !! mkStorageKey address key) as [c|] eqn:Hc;
    [by intros [= _ <-]|].
  destruct (ledgerGetValue address key (Ledger s)) as [[err|bs] w];
    simpl; [done|].
  destruct bs as [|b bs].
  { intros [= _ <-]. split; [done|]. simpl. intros k v Hk.
    rewrite lookup_insert_ne; [done|]. congruence. }
  destruct (decodeStorable (b :: bs)) as [err|storable]; simpl; [done|].
  destruct (storableStoredValue storable w) as [[err|sv] w']; simpl; [done|].
  destruct (convertStoredValue sv) as [err|v']; simpl; [done|].
  intros [= _ <-]. split; [done|]. simpl. intros k v Hk.
  rewrite lookup_insert_ne; [done|]. congruence.
Qed.

Lemma perform_keeps_cache op k v s s' :
  perform op s = (Returned (), s') →
  cache s !! k = Some v → cache s' !! k = Some v.
Proof.
  intros Hrun Hc. destruct op as [a key|a key|a key ov|a key c];
    simpl in *.
  - unfold mbind, M_bind in Hrun.
    destruct (ValueExists a key s) as [[b|p] s0] eqn:Hv; [|done].
    injection Hrun as <-.
    destruct (ValueExists_effect _ _ _ _ _ Hv) as [_ Hkeep]. auto.
  - unfold mbind, M_bind in Hrun.
    destruct (ReadValue a key s) as [[r|p] s0] eqn:Hv; [|done].
    injection Hrun as <-.
    destruct (ReadValue_effect _ _ _ _ _ Hv) as [_ Hkeep]. auto.
  - destruct ov; try done; by injection Hrun as <-.
  - by injection Hrun as <-.
Qed.

Lemma perform_keeps_unwritten op k s s' :
  ¬ writesTo k op →
  perform op s = (Returned (), s') →
  deltas s !! k = None → deltas s' !! k = None.
Proof.
  intros Hop Hrun Hd. destruct op as [a key|a key|a key ov|a key c];
    simpl in *.
  - unfold mbind, M_bind in Hrun.
    destruct (ValueExists a key s) as [[b|p] s0] eqn:Hv; [|done].
    injection Hrun as <-.
    by destruct (ValueExists_effect _ _ _ _ _ Hv) as [-> _].
  - unfold mbind, M_bind in Hrun.
    destruct (ReadValue a key s) as [[r|p] s0] eqn:Hv; [|done].
    injection Hrun as <-.
    by destruct (ReadValue_effect _ _ _ _ _ Hv) as [-> _].
  - destruct ov; try done; injection Hrun as <-; simpl;
      by rewrite lookup_insert_ne.
  - by injection Hrun as <-.
Qed.

Lemma performAll_keeps_cache ops k v s s' :
  performAll ops s = (Returned (), s') →
  cache s !! k = Some v → cache s' !! k = Some v.
Proof.
  revert s. induction ops as [|op ops IH]; intros s; simpl.
  - by intros [= <-].
  - unfold mbind, M_bind.
    destruct (perform op s) as [[[]|p] s0] eqn:Hrun; [|done].
    intros Hrest Hc. apply (IH s0 Hrest).
    by apply (perform_keeps_cache _ _ _ _ _ Hrun).
Qed.

Lemma performAll_keeps_unwritten ops k s s' :
  Forall (λ op, ¬ writesTo k op) ops →
  performAll ops s = (Returned (), s') →
  deltas s !! k = None → deltas s' !! k = None.
Proof.
  intros Hops. revert s. induction Hops as [|op ops Hop _ IH]; intros s.
  - simpl. by intros [= <-].
  - simpl. unfold mbind, M_bind.
    destruct (perform op s) as [[[]|p] s0] eqn:Hrun; [|done].
    intros Hrest Hd. apply (IH s0 Hrest).
    by apply (perform_keeps_unwritten _ _ _ _ Hop Hrun).
Qed.

(** C7 as amended: a [ReadValue] that returns, for a key not in the
    delta, leaves its result in the cache; when it had to ask the ledger
    it made one [GetValue] call, and the result is nil for empty bytes and
    the decoded value otherwise.  After any further operations of the
    transaction, a [ReadValue] of the key returns leaving the whole state,
    the record of calls included, as it was, so it makes no further
    [GetValue] call; and it returns the same result provided the key was
    not written in between. *)
Theorem ReadValue_read_through address key s r s1 :
  deltas s !! mkStorageKey address key = None →
  ReadValue address key s = (Returned r, s1) →
  publicShape r ∧
  cache s1 !! mkStorageKey address key = Some (written r) ∧
  (cache s !! mkStorageKey address key = None →
   ∃ bs w,
     ledgerGetValue address key (Ledger s) = (inr bs, w) ∧
     callsSince s s1 = [CallGetValue address key] ∧
     match bs with
     | [] => r = NilValue
     | _ :: _ => ∃ v, decodes bs w v ∧ r = SomeValue v
     end) ∧
  ∀ ops s2,
    performAll ops s1 = (Returned (), s2) →
    ∃ r',
      ReadValue address key s2 = (Returned r', s2) ∧
      (Forall (λ op, ¬ writesTo (mkStorageKey address key) op) ops →
       r' = r).
Proof.
  intros Hd Hrun.
  assert (Hfirst : publicShape r ∧
    deltas s1 !! mkStorageKey address key = None ∧
    cache s1 !! mkStorageKey address key = Some (written r) ∧
    (cache s !! mkStorageKey address key = None →
     ∃ bs w,
       ledgerGetValue address key (Ledger s) = (inr bs, w) ∧
       callsSince s s1 = [CallGetValue address key] ∧
       match bs with
       | [] => r = NilValue
       | _ :: _ => ∃ v, decodes bs w v ∧ r = SomeValue v
       end)).
  { revert Hrun. unfold ReadValue. run. rewrite Hd.
    destruct (cache s !! mkStorageKey address key) as [c|] eqn:Hc.
    { intros [= <- <-]. by destruct c. }
    destruct (ledgerGetValue address key (Ledger s)) as [[err|bs] w];
      simpl; [done|].
    destruct bs as [|b bs].
    { intros [= <- <-]. simpl. rewrite lookup_insert_eq.
      repeat split; try done. intros _. exists [], w.
      repeat split; try done. apply callsSince_app. done. }
    destruct (decodeStorable (b :: bs)) as [err|storable] eqn:Hdec;
      simpl; [done|].
    destruct (storableStoredValue storable w) as [[err|sv] w'] eqn:Hsv;
      simpl; [done|].
    destruct (convertStoredValue sv) as [err|v'] eqn:Hconv; simpl; [done|].
    intros [= <- <-]. simpl. rewrite lookup_insert_eq.
    repeat split; try done. intros _. exists (b :: bs), w.
    repeat split; try done.
    - apply callsSince_app. done.
    - exists v'. split; [|done]. exists storable, sv. by rewrite Hsv. }
  destruct Hfirst as (Hshape & Hd1 & Hc1 & Hmiss).
  repeat split; try done.
  intros ops s2 Hperf.
  pose proof (performAll_keeps_cache _ _ _ _ _ Hperf Hc1) as Hc2.
  destruct (deltas s2 !! mkStorageKey address key) as [d|] eqn:Hd2.
  - exists (optionalOf d). split; [by apply ReadValue_delta|].
    intros Hops.
    pose proof (performAll_keeps_unwritten _ _ _ _ Hops Hperf Hd1).
    congruence.
  - exists r. split; [|done].
    erewrite ReadValue_cache by done.
    by rewrite optionalOf_written.
Qed.

(** [Commit] only reads the three maps. *)
Lemma Commit_sameBuffers ds cs s r s' :
  Commit ds cs s = (r, s') → sameBuffers s s'.
Proof.
  intros Hrun.
  destruct (Commit_spec ds cs s) as (r0 & s0 & made & Hrun0 & Hsame & _).
  rewrite Hrun in Hrun0. by injection Hrun0 as -> ->.
Qed.

End RuntimeFacts.

(** ** The operations on the small host *)

Section OnMemoryHost.

Import MemoryHost.

Ltac evaluate := vm_compute; reflexivity.
Ltac range :=
  unfold mapRange; apply (bool_decide_unpack _); vm_compute; exact I.

Lemma host_SortPermutes : SortPermutes (H := host).
Proof. intros lt entries. apply insertionSort_perm. Qed.

Lemma host_VersionedEncoding : VersionedEncoding (H := host) x01.
Proof. intros encoder bs [= <-]. by eexists. Qed.

(** The closure of [Commit] puts neither of two keys first when one has
    the smaller address and the other the smaller key: it answers "less"
    both ways, where the lexicographic order answers it one way. *)
Lemma less_both_ways :
  less Ay Bx = true ∧ less Bx Ay = true ∧
  lexLess Ay Bx = true ∧ lexLess Bx Ay = false.
Proof. by vm_compute. Qed.

(** C1 fails on the code: after the writes [(A,y)], [(B,x)], [(A,x)] of
    the ordering scenario, a [Commit] whose range loop yields the pairs
    in that order succeeds and calls [SetValue] on [(A,x)], [(B,x)],
    [(A,y)]: not in ascending [(address, key)] order, which is [(A,x)],
    [(A,y)], [(B,x)]. *)
Theorem Commit_ordering_scenario :
  mapRange (deltas threeWrites) asWritten ∧
  (Commit asWritten [] threeWrites).1 = Returned None ∧
  setValueKeys (callsSince threeWrites (Commit asWritten [] threeWrites).2)
    = [Ax; Bx; Ay] ∧
  ascending [Ax; Bx; Ay] = false ∧
  ascending [Ax; Ay; Bx] = true.
Proof. split; [range|]. repeat split; evaluate. Qed.

(** C2 fails on the code: over one and the same delta, holding [(A,y)]
    and [(B,x)], the two orders a range loop can take lead [Commit] to
    two different sequences of [SetValue] calls. *)
Theorem Commit_depends_on_range_order :
  mapRange (deltas twoWrites) forwards ∧
  mapRange (deltas twoWrites) backwards ∧
  setValueKeys (callsSince twoWrites (Commit forwards [] twoWrites).2)
    = [Bx; Ay] ∧
  setValueKeys (callsSince twoWrites (Commit backwards [] twoWrites).2)
    = [Ay; Bx].
Proof. split; [range|]. split; [range|]. split; evaluate. Qed.

(** C10 fails on the code in its second half: a first [Commit] succeeds
    and leaves the three maps as they were, yet a second [Commit] on the
    same [Storage], its range loop taking the other order, calls
    [SetValue] in another sequence than the first did. *)
Theorem second_Commit_reorders :
  (Commit forwards [] twoWrites).1 = Returned None ∧
  sameBuffers twoWrites committedOnce ∧
  mapRange (deltas committedOnce) backwards ∧
  setValueKeys (callsSince twoWrites committedOnce) = [Bx; Ay] ∧
  setValueKeys
    (callsSince committedOnce (Commit backwards [] committedOnce).2)
    = [Ay; Bx].
Proof.
  split; [evaluate|]. split.
  { by apply (Commit_sameBuffers forwards [] twoWrites
                (Commit forwards [] twoWrites).1), surjective_pairing. }
  split; [range|]. split; evaluate.
Qed.

(** C3 fails on the code: with [(A,x)] both written as a value and
    recorded as a contract update, one [Commit] calls [SetValue] on
    [(A,x)] twice. *)
Lemma Commit_writes_shared_key_twice :
  mapRange (deltas bothBuffers) asValue ∧
  mapRange (contractUpdates bothBuffers) asContract ∧
  ¬ (writesOn Ax
       (callsSince bothBuffers (Commit asValue asContract bothBuffers).2)
     ≤ 1)%nat.
Proof.
  split; [range|]. split; [range|].
  assert (writesOn Ax
            (callsSince bothBuffers
               (Commit asValue asContract bothBuffers).2) = 2%nat) as ->
    by evaluate.
  lia.
Qed.

Lemma Commit_writes_per_buffer_witness :
  (writesOn Ay
     (callsSince mixedBuffers
        (Commit mixedDeltas mixedUpdates mixedBuffers).2)
   ≤ buffersHolding Ay (deltas mixedBuffers)
       (contractUpdates mixedBuffers))%nat ∧
  (CallFastCommit ∈ callsSince mixedBuffers
                      (Commit mixedDeltas mixedUpdates mixedBuffers).2 →
   writesOn Ay
     (callsSince mixedBuffers
        (Commit mixedDeltas mixedUpdates mixedBuffers).2)
   = buffersHolding Ay (deltas mixedBuffers)
       (contractUpdates mixedBuffers)).
Proof.
  apply (Commit_writes_per_buffer (H := host)
           mixedDeltas mixedUpdates mixedBuffers None).
  - exact host_SortPermutes.
  - range.
  - range.
  - evaluate.
Defined.

Lemma Commit_payloads_witness :
  (∃ pairs,
     pairs ≡ₚ map_to_list (deltas mixedBuffers)
                ++ map_to_list (contractUpdates mixedBuffers) ∧
     Forall2 writesPair pairs
       (filter isSetValue
          (callsSince mixedBuffers
             (Commit mixedDeltas mixedUpdates mixedBuffers).2))) ∧
  (∀ k v, deltas mixedBuffers !! k = Some v
          ∨ contractUpdates mixedBuffers !! k = Some v →
          ∃ c, c ∈ callsSince mixedBuffers
                     (Commit mixedDeltas mixedUpdates mixedBuffers).2
               ∧ writesPair (k, v) c).
Proof.
  apply (Commit_payloads (H := host) x01
           mixedDeltas mixedUpdates mixedBuffers None).
  - exact host_SortPermutes.
  - exact host_VersionedEncoding.
  - range.
  - range.
  - evaluate.
  - left. reflexivity.
Defined.

Lemma Commit_first_error_witness :
  Commit lockedDeltas [] lockedWrite
    = (Returned (Some "locked key"%string), atLocked) ∧
  sameBuffers lockedWrite atLocked ∧
  (CallFastCommit ∉ callsSince lockedWrite atLocked) ∧
  ∃ made,
    Forall2 writeOf [mkEntry (mkStorageKey A "a") (Some "1"%string)] made ∧
    (callsSince lockedWrite atLocked = made ∨
     ∃ bs, callsSince lockedWrite atLocked =
             made ++ [CallSetValue (Address (storageKey lockedEntry))
                                   (Key (storageKey lockedEntry)) bs]).
Proof.
  apply (Commit_first_error (H := host) lockedDeltas [] lockedWrite
           [mkEntry (mkStorageKey A "a") (Some "1"%string)]
           lockedEntry
           [mkEntry (mkStorageKey A "z") (Some "3"%string)]
           beforeLocked).
  - evaluate.
  - evaluate.
  - right.
    exists (x01 :: String.list_byte_of_string "2"), beforeLocked,
           (Ledger beforeLocked).
    split; [evaluate|]. split; evaluate.
Defined.

Lemma WriteValue_public_shape_witness :
  WriteValue (Err := string) A "k" (SomeValue "1"%string) fresh =
    (Returned (),
     mkStorage (<[mkStorageKey A "k" := Some "1"%string]> (deltas fresh))
               (cache fresh) (contractUpdates fresh) (Ledger fresh)
               (calls fresh)) ∧
  ∀ v' p s', WriteValue (Err := string) A "k" v' fresh = (Panicked p, s') →
             v' = UnknownOptional.
Proof.
  apply (WriteValue_public_shape A "k" (SomeValue "1"%string) fresh).
  exact I.
Defined.


Lemma ValueExists_lookup_order_witness :
  ValueExists A "y" twoWrites
    = (Returned (bool_decide (Some "1"%string ≠ None)), twoWrites) ∧
  ValueExists A "k" afterRead
    = (Returned (bool_decide (Some "hello"%string ≠ None)), afterRead) ∧
  ValueExists A "j" fresh
    = (Returned false,
       mkStorage (deltas fresh)
                 (<[mkStorageKey A "j" := None]> (cache fresh))
                 (contractUpdates fresh) seeded
                 (calls fresh ++ [CallValueExists A "j"])).
Proof.
  split; [|split].
  - apply (proj1 (ValueExists_lookup_order (H := host) A "y" twoWrites)).
    evaluate.
  - apply (proj1 (proj2
             (ValueExists_lookup_order (H := host) A "k" afterRead)));
      evaluate.
  - apply (proj2 (proj2
             (ValueExists_lookup_order (H := host) A "j" fresh)));
      evaluate.
Defined.

Lemma ReadValue_read_through_witness :
  publicShape (SomeValue "hello"%string) ∧
  cache afterRead !! mkStorageKey A "k"
    = Some (written (SomeValue "hello"%string)) ∧
  (cache fresh !! mkStorageKey A "k" = None →
   ∃ bs w,
     ledgerGetValue A "k" (Ledger fresh) = (inr bs, w) ∧
     callsSince fresh afterRead = [CallGetValue A "k"] ∧
     match bs with
     | [] => SomeValue "hello"%string = NilValue
     | _ :: _ => ∃ v, decodes bs w v ∧ SomeValue "hello"%string = SomeValue v
     end) ∧
  ∀ ops s2,
    performAll ops afterRead = (Returned (), s2) →
    ∃ r',
      ReadValue A "k" s2 = (Returned r', s2) ∧
      (Forall (λ op, ¬ writesTo (mkStorageKey A "k") op) ops →
       r' = SomeValue "hello"%string).
Proof.
  apply (ReadValue_read_through (H := host) A "k" fresh
           (SomeValue "hello"%string) afterRead).
  - evaluate.
  - evaluate.
Defined.

(** C7 fails on the code as stated: after a [ReadValue] of [(A, "k")] has
    returned ["hello"] from the ledger, a [WriteValue] of ["bye"] on the
    key makes the next [ReadValue] of it, in the same transaction, return
    ["bye"]: not the same result, though still without a ledger call. *)
Lemma later_read_returns_written_value :
  deltas fresh !! mkStorageKey A "k" = None ∧
  ReadValue A "k" fresh = (Returned (SomeValue "hello"%string), afterRead) ∧
  performAll [OpWriteValue A "k" (SomeValue "bye"%string)] afterRead
    = (Returned (), afterRewrite) ∧
  ReadValue A "k" afterRewrite
    = (Returned (SomeValue "bye"%string), afterRewrite) ∧
  SomeValue "bye"%string ≠ SomeValue "hello"%string.
Proof. repeat split; try evaluate. discriminate. Qed.

End OnMemoryHost.

(** ** Further properties *)

(** *** The byte order of strings *)

Lemma string_compare_refl (a : string) : String.compare a a = Eq.
Proof.
  induction a as [|c a IH]; simpl; [done|].
  unfold Ascii.compare. by rewrite N.compare_refl.
Qed.

Lemma string_ltb_irrefl (a : string) : String.ltb a a = false.
Proof. unfold String.ltb. by rewrite string_compare_refl. Qed.

Lemma string_ltb_le (a b : string) :
  String.ltb a b = true ↔ String.le a b ∧ a ≠ b.
Proof.
  split.
  - intros Hlt. split.
    + unfold String.le, String.leb. unfold String.ltb in Hlt.
      by destruct (String.compare a b).
    + intros ->. by rewrite string_ltb_irrefl in Hlt.
  - intros [Hle Hne]. unfold String.le, String.leb in Hle.
    unfold String.ltb.
    destruct (String.compare a b) eqn:Hc; [|done|done].
    by apply String.compare_eq_iff in Hc.
Qed.

Lemma string_ltb_trans (a b c : string) :
  String.ltb a b = true → String.ltb b c = true → String.ltb a c = true.
Proof.
  rewrite !string_ltb_le. intros [Hab Hne] [Hbc Hne'].
  split; [by etrans|]. intros ->.
  apply Hne. by apply (anti_symm String.le).
Qed.

Lemma string_ltb_connected (a b : string) :
  String.ltb a b = false → String.ltb b a = false → a = b.
Proof.
  unfold String.ltb. intros H1 H2.
  rewrite (String.compare_antisym b a) in H2.
  destruct (String.compare a b) eqn:Hc; simpl in *.
  - by apply String.compare_eq_iff.
  - discriminate H1.
  - discriminate H2.
Qed.

(** *** Insertion sort under a strict total order *)

Lemma sift_elem_of {A} (lt : A → A → bool) x y (r : list A) :
  y ∈ sift lt x r → y = x ∨ y ∈ r.
Proof. rewrite (sift_perm lt x r). by intros ?%elem_of_cons. Qed.

Lemma sift_sorted {A} (lt : A → A → bool) (l r : list A) x :
  strictTotalOn lt l → x ∈ l → (∀ y, y ∈ r → y ∈ l) →
  StronglySorted (λ a b, lt a b = false) r →
  StronglySorted (λ a b, lt a b = false) (sift lt x r).
Proof.
  intros (Hirr & Htrans & Hconn) Hx.
  induction r as [|p ps IH]; intros Hsub Hsorted; simpl.
  { repeat constructor. }
  apply StronglySorted_cons in Hsorted as [Hp Hps].
  rewrite Forall_forall in Hp.
  assert (Hpl : p ∈ l) by (apply Hsub; left).
  assert (Hpsl : ∀ y, y ∈ ps → y ∈ l) by (intros y ?; apply Hsub; by right).
  destruct (lt x p) eqn:Hxp.
  - apply StronglySorted_cons. split; [|by apply IH].
    apply Forall_forall. intros y [->|Hy]%sift_elem_of; [|by apply Hp].
    destruct (lt p x) eqn:Hpx; [|done].
    rewrite <- (Hirr x Hx). symmetry. by apply (Htrans x p x).
  - apply StronglySorted_cons. split.
    + apply Forall_forall. intros y [->|Hy]%elem_of_cons; [done|].
      destruct (lt x y) eqn:Hxy; [|done].
      destruct (lt p x) eqn:Hpx.
      * rewrite <- (Hp y Hy). symmetry. apply (Htrans p x y); auto.
      * rewrite (Hconn x p Hx Hpl Hxp Hpx) in Hxy.
        by rewrite (Hp y Hy) in Hxy.
    + apply StronglySorted_cons. by rewrite Forall_forall.
Qed.

Lemma StronglySorted_rev {A} (R : relation A) (l : list A) :
  StronglySorted R l → StronglySorted (flip R) (rev l).
Proof.
  induction 1 as [|x l Hl IH Hx]; simpl; [constructor|].
  apply StronglySorted_app_2; [|done|repeat constructor].
  intros y z Hy ->%list_elem_of_singleton.
  rewrite Forall_forall in Hx. apply Hx.
  by apply list_elem_of_In, in_rev, list_elem_of_In.
Qed.

Lemma insertionSort_sorted {A} (lt : A → A → bool) (l : list A) :
  strictTotalOn lt l →
  StronglySorted (λ a b, lt b a = false) (insertionSort lt l).
Proof.
  intros Hord. unfold insertionSort.
  apply (StronglySorted_rev (λ a b, lt a b = false)).
  assert (G : ∀ data acc,
    (∀ y, y ∈ data → y ∈ l) → (∀ y, y ∈ acc → y ∈ l) →
    StronglySorted (λ a b, lt a b = false) acc →
    StronglySorted (λ a b, lt a b = false)
      (fold_left (λ r x, sift lt x r) data acc)).
  { induction data as [|x data IH]; intros acc Hdata Hacc Hsorted; simpl;
      [done|].
    apply IH.
    - intros y Hy. apply Hdata. by right.
    - intros y [->|Hy]%sift_elem_of; [apply Hdata; left|by apply Hacc].
    - apply (sift_sorted lt l); auto. apply Hdata. left. }
  apply G; [done| |constructor].
  by intros y ?%not_elem_of_nil.
Qed.

(** *** The closure of [Commit] against the lexicographic order *)

(** The closure handed to [sort.Slice] departs from the lexicographic
    order on exactly the pairs whose first key has the larger address and
    the smaller key string: there it answers true. *)
Theorem less_departs_from_lexLess (a b : StorageKey) :
  less a b ≠ lexLess a b ↔
    String.compare (Address a) (Address b) = Gt ∧
    String.ltb (Key a) (Key b) = true.
Proof.
  unfold less, lexLess, bytesCompare.
  destruct (String.compare (Address a) (Address b)); simpl;
    destruct (String.ltb (Key a) (Key b)); intuition congruence.
Qed.

Lemma less_same_address (a b : StorageKey) :
  Address a = Address b → less a b = String.ltb (Key a) (Key b).
Proof.
  intros Heq. unfold less, bytesCompare.
  rewrite Heq, string_compare_refl. simpl.
  by destruct (String.ltb (Key a) (Key b)).
Qed.

Lemma lexLess_same_address (a b : StorageKey) :
  Address a = Address b → lexLess a b = String.ltb (Key a) (Key b).
Proof. intros Heq. unfold lexLess. by rewrite Heq, string_compare_refl. Qed.

(** *** Reads, writes and the two buffers *)

Section MoreRuntimeFacts.

Context {Value Err World Storable Encoder AtreeValue : Type}.
Context `{!@Host Value Err World Storable Encoder AtreeValue}.

Implicit Types (s : @Storage Value World) (k : StorageKey).
Implicit Types (entry : @accountStorageEntry Value).

Ltac run :=
  unfold mbind, mret, M_bind, M_ret, getStorage, record, onLedger,
    setCache, setDelta, setContractUpdate, panic, orPanic in *;
  simpl in *.

Lemma ValueExists_delta address key v s :
  deltas s !! mkStorageKey address key = Some v →
  ValueExists address key s = (Returned (notNil v), s).
Proof. intros Hd. unfold ValueExists. run. by rewrite Hd. Qed.

Lemma ValueExists_cache address key v s :
  deltas s !! mkStorageKey address key = None →
  cache s !! mkStorageKey address key = Some v →
  ValueExists address key s = (Returned (notNil v), s).
Proof. intros Hd Hc. unfold ValueExists. run. by rewrite Hd, Hc. Qed.

(** Once [ValueExists] has answered false, [ReadValue] of the key returns
    nil and leaves the state as it is: it does not ask the ledger, whatever
    the ledger's [GetValue] would return. *)
Theorem ValueExists_false_then_ReadValue address key s s' :
  ValueExists address key s = (Returned false, s') →
  ReadValue address key s' = (Returned NilValue, s').
Proof.
  unfold ValueExists. run.
  destruct (deltas s !! mkStorageKey address key) as [d|] eqn:Hd.
  { intros [= Hnil <-]. destruct d; [done|].
    by rewrite (ReadValue_delta _ _ _ _ Hd). }
  destruct (cache s !! mkStorageKey address key) as [c|] eqn:Hc.
  { intros [= Hnil <-]. destruct c; [done|].
    by rewrite (ReadValue_cache _ _ _ _ Hd Hc). }
  destruct (ledgerValueExists address key (Ledger s)) as [[err|[]] w];
    simpl; [done|done|].
  intros [= <-].
  rewrite (ReadValue_cache _ _ None);
    [done|done|simpl; apply lookup_insert_eq].
Qed.

(** Once [ReadValue] has returned, [ValueExists] of the key answers from
    the buffers, true exactly for a [SomeValue], and leaves the state as
    it is: it does not ask the ledger. *)
Theorem ReadValue_then_ValueExists address key s r s' :
  ReadValue address key s = (Returned r, s') →
  ValueExists address key s' = (Returned (isSomeValue r), s').
Proof.
  unfold ReadValue. run.
  destruct (deltas s !! mkStorageKey address key) as [d|] eqn:Hd.
  { intros [= <- <-]. rewrite (ValueExists_delta _ _ _ _ Hd). by destruct d. }
  destruct (cache s !! mkStorageKey address key) as [c|] eqn:Hc.
  { intros [= <- <-]. rewrite (ValueExists_cache _ _ _ _ Hd Hc).
    by destruct c. }
  destruct (ledgerGetValue address key (Ledger s)) as [[err|bs] w];
    simpl; [done|].
  destruct bs as [|b bs].
  { intros [= <- <-].
    rewrite (ValueExists_cache _ _ None);
      [done|done|simpl; apply lookup_insert_eq]. }
  destruct (decodeStorable (b :: bs)) as [err|storable]; simpl; [done|].
  destruct (storableStoredValue storable w) as [[err|sv] w']; simpl; [done|].
  destruct (convertStoredValue sv) as [err|v']; simpl; [done|].
  intros [= <- <-].
  rewrite (ValueExists_cache _ _ (Some v'));
    [done|done|simpl; apply lookup_insert_eq].
Qed.

(** [ValueExists] keeps no record of a positive answer: when it returns
    true the three maps are as before, so when the answer came from the
    ledger the next [ValueExists] of the key asks the ledger again. *)
Theorem ValueExists_true_not_cached address key s s' :
  ValueExists address key s = (Returned true, s') →
  sameBuffers s s' ∧
  (deltas s !! mkStorageKey address key = None →
   cache s !! mkStorageKey address key = None →
   ∀ o s'', ValueExists address key s' = (o, s'') →
            callsSince s' s'' = [CallValueExists address key]).
Proof.
  unfold ValueExists at 1. run.
  destruct (deltas s !! mkStorageKey address key) as [d|] eqn:Hd.
  { intros [= _ <-]. by split. }
  destruct (cache s !! mkStorageKey address key) as [c|] eqn:Hc.
  { intros [= _ <-]. by split. }
  destruct (ledgerValueExists address key (Ledger s)) as [[err|[]] w];
    simpl; [done| |done].
  intros [= <-]. split; [done|]. intros _ _ o s''.
  unfold ValueExists. run. rewrite Hd, Hc. simpl.
  destruct (ledgerValueExists address key w) as [[err|[]] w'']; simpl;
    intros [= _ <-]; by apply callsSince_app.
Qed.

(** A [ReadValue] that panics has asked the ledger once and carries the
    error of the ledger's [GetValue] or, for bytes that do not decode, of
    the codec; the three maps are as before, so the failure leaves no
    entry, nil or other, in the cache. *)
Theorem ReadValue_panic_keeps_buffers address key s p s' :
  ReadValue address key s = (Panicked p, s') →
  sameBuffers s s' ∧
  callsSince s s' = [CallGetValue address key] ∧
  ∃ err, p = PanicError err ∧
    ((ledgerGetValue address key (Ledger s)).1 = inl err ∨
     ∃ bs, (ledgerGetValue address key (Ledger s)).1 = inr bs ∧ bs ≠ [] ∧
           ∀ v, ¬ decodes bs (ledgerGetValue address key (Ledger s)).2 v).
Proof.
  unfold ReadValue. run.
  destruct (deltas s !! mkStorageKey address key) as [d|]; [done|].
  destruct (cache s !! mkStorageKey address key) as [c|]; [done|].
  destruct (ledgerGetValue address key (Ledger s)) as [[err|bs] w];
    simpl.
  { intros [= <- <-]. split; [done|]. split; [by apply callsSince_app|].
    exists err. split; [done|]. by left. }
  destruct bs as [|b bs]; [done|].
  destruct (decodeStorable (b :: bs)) as [err|storable] eqn:Hdec; simpl.
  { intros [= <- <-]. split; [done|]. split; [by apply callsSince_app|].
    exists err. split; [done|]. right. exists (b :: bs).
    split; [done|]. split; [done|].
    intros v (st & sv & Hst & _). congruence. }
  destruct (storableStoredValue storable w) as [[err|sv] w'] eqn:Hsv; simpl.
  { intros [= <- <-]. split; [done|]. split; [by apply callsSince_app|].
    exists err. split; [done|]. right. exists (b :: bs).
    split; [done|]. split; [done|].
    intros v (st & sv & Hst & Hstored & _).
    rewrite Hdec in Hst. injection Hst as <-.
    rewrite Hsv in Hstored. done. }
  destruct (convertStoredValue sv) as [err|v'] eqn:Hconv; simpl; [|done].
  intros [= <- <-]. split; [done|]. split; [by apply callsSince_app|].
  exists err. split; [done|]. right. exists (b :: bs).
  split; [done|]. split; [done|].
  intros v (st & sv0 & Hst & Hstored & Hv).
  rewrite Hdec in Hst. injection Hst as <-.
  rewrite Hsv in Hstored. simpl in Hstored. injection Hstored as <-.
  congruence.
Qed.

(** A [ValueExists] that panics has asked the ledger once and carries the
    error of the ledger's [ValueExists]; the three maps are as before. *)
Theorem ValueExists_panic_keeps_buffers address key s p s' :
  ValueExists address key s = (Panicked p, s') →
  sameBuffers s s' ∧
  callsSince s s' = [CallValueExists address key] ∧
  ∃ err, p = PanicError err ∧
         (ledgerValueExists address key (Ledger s)).1 = inl err.
Proof.
  unfold ValueExists. run.
  destruct (deltas s !! mkStorageKey address key) as [d|]; [done|].
  destruct (cache s !! mkStorageKey address key) as [c|]; [done|].
  destruct (ledgerValueExists address key (Ledger s)) as [[err|[]] w];
    simpl; [|done|done].
  intros [= <- <-]. split; [done|]. split; [by apply callsSince_app|].
  by exists err.
Qed.

Lemma ReadValue_outcome_frame address key s s' :
  deltas s' !! mkStorageKey address key = deltas s !! mkStorageKey address key →
  cache s' !! mkStorageKey address key = cache s !! mkStorageKey address key →
  Ledger s' = Ledger s →
  (ReadValue address key s').1 = (ReadValue address key s).1.
Proof.
  destruct s as [d c cu w l], s' as [d' c' cu' w' l']. simpl.
  intros Hd Hc ->. unfold ReadValue. run. rewrite Hd, Hc.
  destruct (d !! mkStorageKey address key); simpl; [reflexivity|].
  destruct (c !! mkStorageKey address key); simpl; [reflexivity|].
  destruct (ledgerGetValue address key w) as [[err|bs] w0]; simpl;
    [reflexivity|].
  destruct bs as [|b bs]; simpl; [reflexivity|].
  destruct (decodeStorable (b :: bs)) as [err|storable]; simpl;
    [reflexivity|].
  destruct (storableStoredValue storable w0) as [[err|sv] w1]; simpl;
    [reflexivity|].
  destruct (convertStoredValue sv) as [err|v']; simpl; reflexivity.
Qed.

Lemma ValueExists_outcome_frame address key s s' :
  deltas s' !! mkStorageKey address key = deltas s !! mkStorageKey address key →
  cache s' !! mkStorageKey address key = cache s !! mkStorageKey address key →
  Ledger s' = Ledger s →
  (ValueExists address key s').1 = (ValueExists address key s).1.
Proof.
  destruct s as [d c cu w l], s' as [d' c' cu' w' l']. simpl.
  intros Hd Hc ->. unfold ValueExists. run. rewrite Hd, Hc.
  destruct (d !! mkStorageKey address key); simpl; [reflexivity|].
  destruct (c !! mkStorageKey address key); simpl; [reflexivity|].
  destruct (ledgerValueExists address key w) as [[err|[]] w0]; simpl;
    reflexivity.
Qed.

(** A recorded contract update is invisible to the reads of the
    transaction: [ReadValue] and [ValueExists], of the updated key or of
    any other, give the result they gave before it. *)
Theorem recordContractUpdate_invisible address' key' contract address key s :
  (ReadValue address key (recordContractUpdate (Err := Err) address' key' contract s).2).1
    = (ReadValue address key s).1 ∧
  (ValueExists address key (recordContractUpdate (Err := Err) address' key' contract s).2).1
    = (ValueExists address key s).1.
Proof.
  split.
  - by apply ReadValue_outcome_frame.
  - by apply ValueExists_outcome_frame.
Qed.

(** After a [WriteValue] of a public shape, [ValueExists] of the key
    answers from the delta, true exactly for a [SomeValue], with no
    ledger call. *)
Theorem WriteValue_then_ValueExists address key v s :
  publicShape v →
  ValueExists address key (WriteValue (Err := Err) address key v s).2
    = (Returned (isSomeValue v),
       (WriteValue (Err := Err) address key v s).2).
Proof.
  intros Hshape. rewrite (WriteValue_returns _ _ _ _ Hshape). simpl.
  erewrite ValueExists_delta by (simpl; apply lookup_insert_eq).
  by destruct v.
Qed.

(** A [WriteValue] on one key leaves the reads of every other key as
    they were. *)
Theorem WriteValue_other_key address' key' v address key s :
  publicShape v →
  mkStorageKey address' key' ≠ mkStorageKey address key →
  (ReadValue address key (WriteValue (Err := Err) address' key' v s).2).1
    = (ReadValue address key s).1 ∧
  (ValueExists address key (WriteValue (Err := Err) address' key' v s).2).1
    = (ValueExists address key s).1.
Proof.
  intros Hshape Hne. rewrite (WriteValue_returns _ _ _ _ Hshape). simpl.
  split.
  - apply ReadValue_outcome_frame; simpl; [|done|done].
    by apply lookup_insert_ne.
  - apply ValueExists_outcome_frame; simpl; [|done|done].
    by apply lookup_insert_ne.
Qed.

End MoreRuntimeFacts.

(** *** The further properties on the small hosts *)

Section MoreOnMemoryHost.

Import MemoryHost.

Ltac evaluate := vm_compute; reflexivity.
Ltac range :=
  unfold mapRange; apply (bool_decide_unpack _); vm_compute; exact I.

Lemma ValueExists_false_then_ReadValue_witness :
  ReadValue A "j" afterMissing = (Returned NilValue, afterMissing).
Proof.
  apply (ValueExists_false_then_ReadValue (H := host) A "j" fresh).
  evaluate.
Defined.

Lemma ReadValue_then_ValueExists_witness :
  ValueExists A "k" afterRead
    = (Returned (isSomeValue (SomeValue "hello"%string)), afterRead).
Proof.
  apply (ReadValue_then_ValueExists (H := host) A "k" fresh).
  evaluate.
Defined.

Lemma ValueExists_true_not_cached_witness :
  sameBuffers fresh afterExists ∧
  (deltas fresh !! mkStorageKey A "k" = None →
   cache fresh !! mkStorageKey A "k" = None →
   ∀ o s'', ValueExists A "k" afterExists = (o, s'') →
            callsSince afterExists s'' = [CallValueExists A "k"]).
Proof.
  apply (ValueExists_true_not_cached (H := host) A "k" fresh).
  evaluate.
Defined.

Lemma ReadValue_panic_keeps_buffers_witness :
  sameBuffers corrupted (ReadValue A "k" corrupted).2 ∧
  callsSince corrupted (ReadValue A "k" corrupted).2 = [CallGetValue A "k"] ∧
  ∃ err, PanicError "unknown version"%string = PanicError err ∧
    ((ledgerGetValue A "k" (Ledger corrupted)).1 = inl err ∨
     ∃ bs, (ledgerGetValue A "k" (Ledger corrupted)).1 = inr bs ∧ bs ≠ [] ∧
           ∀ v, ¬ decodes bs (ledgerGetValue A "k" (Ledger corrupted)).2 v).
Proof.
  apply (ReadValue_panic_keeps_buffers (H := host) A "k" corrupted).
  evaluate.
Defined.

Lemma ValueExists_panic_keeps_buffers_witness :
  sameBuffers (NewStorage ()) (ValueExists (H := downHost) A "k" (NewStorage ())).2 ∧
  callsSince (NewStorage ())
             (ValueExists (H := downHost) A "k" (NewStorage ())).2
    = [CallValueExists A "k"] ∧
  ∃ err, PanicError "ledger down"%string = PanicError err ∧
         (ledgerValueExists (Host := downHost) A "k"
            (Ledger (NewStorage (Value := string) ()))).1 = inl err.
Proof.
  apply (ValueExists_panic_keeps_buffers (H := downHost) A "k"
           (NewStorage ())).
  evaluate.
Defined.

Lemma WriteValue_then_ValueExists_witness :
  ValueExists A "k"
    (WriteValue (Err := string) A "k" (NilValue (Value := string)) fresh).2
    = (Returned (isSomeValue (NilValue (Value := string))),
       (WriteValue (Err := string) A "k" NilValue fresh).2).
Proof.
  apply (WriteValue_then_ValueExists (H := host) A "k" NilValue fresh).
  exact I.
Defined.

Lemma WriteValue_other_key_witness :
  (ReadValue A "k"
     (WriteValue (Err := string) A "j" (SomeValue "1"%string) fresh).2).1
    = (ReadValue A "k" fresh).1 ∧
  (ValueExists A "k"
     (WriteValue (Err := string) A "j" (SomeValue "1"%string) fresh).2).1
    = (ValueExists A "k" fresh).1.
Proof.
  apply (WriteValue_other_key (H := host) A "j" (SomeValue "1"%string)
           A "k" fresh).
  - exact I.
  - discriminate.
Defined.

End MoreOnMemoryHost.
